(** * httperr: RFC 9457 problem details from application errors

    A shallow embedding of [httperr.go] (package [httperr]) together with
    the part of Go's [errors] and [strings] packages that the code calls,
    followed by the properties of [Map.Match], [Response.ProblemDetail]
    and [Resolve].  Error values are finite trees; [Resolve_run] is the
    same code as a call on a heap of error objects, where a call may panic
    or go on for ever, and the trees are the errors on which it returns. *)

From Stdlib Require Import ZArith Bool Ascii.
From stdpp Require Import base option list strings gmap fin_maps.

(** ** Go strings

    A Go string is a sequence of bytes, as is a [string] here.  The two
    helpers follow [strings.HasPrefix] and [strings.HasSuffix]:
    [len(s) >= len(prefix) && s[:len(prefix)] == prefix] and
    [len(s) >= len(suffix) && s[len(s)-len(suffix):] == suffix]. *)
Definition strings_HasPrefix (s pre : string) : bool :=
  (String.length pre <=? String.length s)%nat
  && String.eqb (String.substring 0 (String.length pre) s) pre.

Definition strings_HasSuffix (s suf : string) : bool :=
  (String.length suf <=? String.length s)%nat
  && String.eqb
       (String.substring (String.length s - String.length suf)
          (String.length suf) s)
       suf.

(** ** Go error values

    An [error] is an interface value: [Nil], or a dynamic value that may
    carry one of the two [Unwrap] methods.  What the code observes of the
    dynamic value is collected in [value]. *)

(** The identity Go's [==] compares on interface values: the dynamic type
    together with the pointer (or comparable value) it holds. *)
Definition ident := N.

(** [language.Tag], by its BCP 47 text. *)
Definition Tag := string.

(** A value of interface type [Localizable] is its [Localize] method. *)
Definition Localizable := Tag → string.

Record value := Value {
  id : ident;
  (* reflectlite.TypeOf(v).Comparable() *)
  comparable : bool;
  (* an [Is(error) bool] method, applied to the identity of its argument *)
  Is_method : option (ident → bool);
  (* an [As(any) bool] method called on a [*Localizable]: [Some l] when it
     stores [l] and returns true *)
  As_method : option Localizable;
  (* the [Localize] method when the dynamic type implements [Localizable] *)
  Localize_method : option Localizable
}.
Arguments Value id%_N comparable Is_method As_method Localize_method.

#[local] Unset Elimination Schemes.
Inductive error : Type :=
  | Nil
  | Plain (v : value)
  | Wrapping (v : value) (inner : error)         (* Unwrap() error *)
  | Joined (v : value) (inners : list error).    (* Unwrap() []error *)
#[local] Set Elimination Schemes.

(** [errors.New(text)]: a fresh [*errorString] at address [p]. *)
Definition errors_New (p : ident) : error :=
  Plain (Value p true None None None).
Arguments errors_New p%_N.

(** [fmt.Errorf("...: %w", inner)] with a non-nil [inner]: a fresh
    [*wrapError] at address [p]. *)
Definition fmt_Errorf (p : ident) (inner : error) : error :=
  Wrapping (Value p true None None None) inner.
Arguments fmt_Errorf p%_N inner.

(** The dynamic value of an interface value, [None] for nil. *)
Definition dyn (e : error) : option value :=
  match e with
  | Nil => None
  | Plain v | Wrapping v _ | Joined v _ => Some v
  end.

(** [a == b] on two interface values of type [error]. *)
Definition same_error (a b : error) : bool :=
  match dyn a, dyn b with
  | None, None => true
  | Some v, Some w => (id v =? id w)%N
  | _, _ => false
  end.

(** The first result [Some b] of [f] along a list: the loop
    [for _, x := range l { if ok { return } }]. *)
Definition first_some {A B} (f : A → option B) : list A → option B :=
  fix go l :=
    match l with
    | [] => None
    | a :: l' => match f a with Some b => Some b | None => go l' end
    end.

(** One turn of the loop of [errors.is] before unwrapping: the identity
    test, then the [Is] method. *)
Definition is_here (v target : value) (targetComparable : bool) : bool :=
  (targetComparable && (id v =? id target)%N)
  || match Is_method v with
     | Some m => m (id target)
     | None => false
     end.

(** [errors.is(err, target, targetComparable)]. *)
Fixpoint is_ (err : error) (target : value) (targetComparable : bool) : bool :=
  match err with
  | Nil => false
  | Plain v => is_here v target targetComparable
  | Wrapping v inner =>
      is_here v target targetComparable || is_ inner target targetComparable
  | Joined v inners =>
      is_here v target targetComparable
      || existsb (λ e, is_ e target targetComparable) inners
  end.

(** [errors.Is(err, target)]. *)
Definition errors_Is (err target : error) : bool :=
  match dyn err, dyn target with
  | Some _, Some t => is_ err t (comparable t)
  | _, _ => same_error err target
  end.

(** One turn of the loop of [errors.As] for a target of type
    [*Localizable]: assignability of the dynamic type, then the [As]
    method. *)
Definition as_here (v : value) : option Localizable :=
  match Localize_method v with
  | Some l => Some l
  | None => As_method v
  end.

(** [errors.As(err, &loc)] with [loc] of type [Localizable]: the value
    stored in [loc] when the call returns true. *)
Fixpoint errors_As (err : error) : option Localizable :=
  match err with
  | Nil => None
  | Plain v => as_here v
  | Wrapping v inner =>
      match as_here v with Some l => Some l | None => errors_As inner end
  | Joined v inners =>
      match as_here v with Some l => Some l | None => first_some errors_As inners end
  end.

(** ** httperr.go *)

(** [Config] is the HTTP response configuration for an error.  The status
    is a Go [int]; the code only stores and copies it. *)
Record Config := mkConfig {
  Config_Type : string;     (* RFC 9457 type URI *)
  Config_Title : string;    (* short description *)
  Config_Status : Z         (* HTTP status code *)
}.

Definition New (typ title : string) (status : Z) : Config :=
  {| Config_Type := typ; Config_Title := title; Config_Status := status |}.

Definition StatusInternalServerError : Z := 500.

Definition defaultConfig : Config :=
  {| Config_Type := "about:blank";
     Config_Title := "Internal Server Error";
     Config_Status := StatusInternalServerError |}.

(** [Map] is [map[error]Config].  Go leaves the order of [range] over a map
    open, so a map is given by one enumeration of its entries; [Map_ok]
    says that no key occurs twice under [==]. *)
Abbreviation Map := (list (error * Config)).

Definition Map_ok (m : Map) : Prop :=
  ∀ i j t1 c1 t2 c2,
    m !! i = Some (t1, c1) → m !! j = Some (t2, c2) →
    same_error t1 t2 = true → i = j.

(** [Map.Match]: the first entry of the enumeration whose key [errors.Is]
    accepts, [defaultConfig] when the loop runs out. *)
Fixpoint Match (m : Map) (err : error) : Config :=
  match m with
  | [] => defaultConfig
  | (target, config) :: rest =>
      if errors_Is err target then config else Match rest err
  end.

(** [Response] is the resolved response information. *)
Record Response := mkResponse {
  Response_Type : string;
  Response_Title : string;
  Response_Status : Z;
  Response_Detail : string   (* localized message, from [Localizable] *)
}.

(** The values [ProblemDetail] stores in its [map[string]any]. *)
Inductive any : Type :=
  | AnyString (s : string)
  | AnyInt (n : Z).

Definition isAbsoluteURI (uri : string) : bool :=
  strings_HasPrefix uri "http://"
  || strings_HasPrefix uri "https://"
  || strings_HasPrefix uri "about:".

Definition resolveURI (base ref : string) : string :=
  let base := if negb (strings_HasSuffix base "/") then base +:+ "/" else base in
  base +:+ ref.

(** [Response.ProblemDetail]; the variadic [baseURI ...string] is the list
    of the arguments passed for it. *)
Definition ProblemDetail (r : Response) (instance : string)
    (baseURI : list string) : gmap string any :=
  let typeURI :=
    match baseURI with
    | b :: _ =>
        if negb (String.eqb b "") && negb (isAbsoluteURI (Response_Type r))
        then resolveURI b (Response_Type r)
        else Response_Type r
    | [] => Response_Type r
    end in
  let pd : gmap string any :=
    <["status" := AnyInt (Response_Status r)]>
      (<["title" := AnyString (Response_Title r)]>
         (<["type" := AnyString typeURI]> ∅)) in
  let pd :=
    if negb (String.eqb (Response_Detail r) "")
    then <["detail" := AnyString (Response_Detail r)]> pd else pd in
  let pd :=
    if negb (String.eqb instance "")
    then <["instance" := AnyString instance]> pd else pd in
  pd.

(** [Resolve]: the configuration from [Map.Match], the detail from the
    [Localizable] that [errors.As] finds. *)
Definition Resolve (err : error) (m : Map) (tag : Tag) : Response :=
  let config := Match m err in
  let detail :=
    match errors_As err with
    | Some loc => loc tag
    | None => ""
    end in
  {| Response_Type := Config_Type config;
     Response_Title := Config_Title config;
     Response_Status := Config_Status config;
     Response_Detail := detail |}.

(** ** Fixtures of httperr_test.go *)

Definition English : Tag := "en".
Definition Japanese : Tag := "ja".

Definition ErrNotFound : error := errors_New 1.
Definition ErrUnauthorized : error := errors_New 2.

(** [newLocalizableError(err, messages)]: a [*localizableError] at address
    [p]; [Localize] falls back to the English entry. *)
Definition newLocalizableError (p : ident) (err : error)
    (messages : gmap Tag string) : error :=
  Wrapping
    {| id := p; comparable := true; Is_method := None; As_method := None;
       Localize_method :=
         Some (λ tag, match messages !! tag with
                      | Some msg => msg
                      | None => default "" (messages !! English)
                      end) |}
    err.
Arguments newLocalizableError p%_N err messages.

Definition errMap : Map :=
  [ (ErrNotFound, New "resource/not-found" "Not Found" 404);
    (ErrUnauthorized, New "auth/unauthorized" "Unauthorized" 401) ].

(** ** Vocabulary of the properties *)

(** The wrap chain of an error: the dynamic values that [errors.Is] and
    [errors.As] visit, in the order they visit them. *)
Fixpoint chain (err : error) : list value :=
  match err with
  | Nil => []
  | Plain v => [v]
  | Wrapping v inner => v :: chain inner
  | Joined v inners => v :: flat_map chain inners
  end.

(** [wrap layers e]: the error [e] under wrapping layers, the outermost
    first; each layer is a dynamic value whose [Unwrap] returns the next. *)
Definition wrap (layers : list value) (e : error) : error :=
  foldr Wrapping e layers.

(** Every key of [m] that [err] satisfies is the key [s]. *)
Definition no_other_sentinel (m : Map) (s err : error) : Prop :=
  ∀ t c, (t, c) ∈ m → errors_Is err t = true → same_error t s = true.

(** [err] satisfies no key of [m]. *)
Definition unmatched (m : Map) (err : error) : Prop :=
  ∀ t c, (t, c) ∈ m → errors_Is err t = false.

(** [base] with a ["/"] appended unless it ends in one. *)
Definition with_trailing_slash (base : string) : string :=
  if strings_HasSuffix base "/" then base else base +:+ "/".

(** [prefix] ends in exactly one ["/"]. *)
Definition one_trailing_slash (prefix : string) : Prop :=
  strings_HasSuffix prefix "/" = true ∧ strings_HasSuffix prefix "//" = false.

(** The value stored under ["type"]. *)
Definition emitted_type (r : Response) (instance : string)
    (baseURI : list string) : option any :=
  ProblemDetail r instance baseURI !! "type".

(** No key of [m] has the identity [p]. *)
Definition unregistered (m : Map) (p : ident) : Prop :=
  ∀ t c w, (t, c) ∈ m → dyn t = Some w → id w ≠ p.

(** A wrapping layer without methods of its own besides [Error] and
    [Unwrap], as [*fmt.wrapError] is. *)
Definition plain_layer (v : value) : Prop :=
  Is_method v = None ∧ As_method v = None ∧ Localize_method v = None.

(** [r] with another type. *)
Definition with_type (r : Response) (typ : string) : Response :=
  {| Response_Type := typ;
     Response_Title := Response_Title r;
     Response_Status := Response_Status r;
     Response_Detail := Response_Detail r |}.

(** ** [Resolve] as a call on the heap

    The error values above are finite trees whose [As] methods store what
    they find.  Go does not promise either: an [Unwrap] method may lead
    back to the value it was called on, and an [As] method may return true
    and leave its target alone.  Here the dynamic values are objects of a
    heap, an interface value is nil or the address of an object, and a
    call takes fuel: [None] says that it has not returned within the
    fuel. *)

Definition iface := option ident.

(** What an [As(any) bool] method does on a [*Localizable]: the interface
    value it stores in the target, if it stores one, and what it
    returns. *)
Record As_call := {
  As_stores : option (option Localizable);
  As_returns : bool
}.

Inductive Unwrap_method : Type :=
  | NoUnwrap
  | UnwrapError (next : iface)              (* Unwrap() error *)
  | UnwrapErrors (nexts : list iface).      (* Unwrap() []error *)

Record object := {
  obj_comparable : bool;
  obj_Is : option (ident → bool);
  obj_As : option As_call;
  obj_Localize : option Localizable;
  obj_Unwrap : Unwrap_method
}.

Definition heap := ident → object.

(** How a call ends when it ends. *)
Inductive result (A : Type) : Type :=
  | Returns (a : A)
  | Panics.
Arguments Returns {A} a.
Arguments Panics {A}.

(** The loop over [x.Unwrap()] in [errors.is]; a nil entry is not the
    target and has no method. *)
Definition is_loop (f : ident → option bool) : list iface → option bool :=
  fix loop l :=
    match l with
    | [] => Some false
    | None :: l' => loop l'
    | Some e :: l' =>
        match f e with
        | Some true => Some true
        | Some false => loop l'
        | None => None
        end
    end.

(** [errors.is(err, target, targetComparable)] for a non-nil [err]. *)
Fixpoint is_run (h : heap) (fuel : nat) (err target : ident)
    (targetComparable : bool) : option bool :=
  match fuel with
  | O => None
  | S fuel =>
      if targetComparable && (err =? target)%N then Some true
      else if match obj_Is (h err) with
              | Some m => m target
              | None => false
              end
      then Some true
      else match obj_Unwrap (h err) with
           | UnwrapError None => Some false
           | UnwrapError (Some next) =>
               is_run h fuel next target targetComparable
           | UnwrapErrors nexts =>
               is_loop (λ e, is_run h fuel e target targetComparable) nexts
           | NoUnwrap => Some false
           end
  end.

(** [errors.Is(err, target)]. *)
Definition Is_run (h : heap) (fuel : nat) (err target : iface) : option bool :=
  match err, target with
  | Some e, Some t => is_run h fuel e t (obj_comparable (h t))
  | None, None => Some true
  | _, _ => Some false
  end.

(** The loop over [x.Unwrap()] in [errors.as]; nil entries are skipped.
    The second component is the interface value the target holds. *)
Definition as_loop
    (f : ident → option Localizable → option (bool * option Localizable)) :
    list iface → option Localizable → option (bool * option Localizable) :=
  fix loop l loc :=
    match l with
    | [] => Some (false, loc)
    | None :: l' => loop l' loc
    | Some e :: l' =>
        match f e loc with
        | Some (true, loc') => Some (true, loc')
        | Some (false, loc') => loop l' loc'
        | None => None
        end
    end.

(** [errors.as(err, &loc, ...)] for a non-nil [err], where [loc] holds the
    interface value given: what the call returns and what [loc] holds
    then. *)
Fixpoint as_run (h : heap) (fuel : nat) (err : ident)
    (loc : option Localizable) : option (bool * option Localizable) :=
  match fuel with
  | O => None
  | S fuel =>
      match obj_Localize (h err) with
      | Some l => Some (true, Some l)
      | None =>
          let '(returned, loc) :=
            match obj_As (h err) with
            | Some call =>
                (As_returns call,
                 match As_stores call with
                 | Some stored => stored
                 | None => loc
                 end)
            | None => (false, loc)
            end in
          if returned then Some (true, loc)
          else match obj_Unwrap (h err) with
               | UnwrapError None => Some (false, loc)
               | UnwrapError (Some next) => as_run h fuel next loc
               | UnwrapErrors nexts => as_loop (as_run h fuel) nexts loc
               | NoUnwrap => Some (false, loc)
               end
      end
  end.

(** [errors.As(err, &loc)]. *)
Definition As_run (h : heap) (fuel : nat) (err : iface)
    (loc : option Localizable) : option (bool * option Localizable) :=
  match err with
  | None => Some (false, loc)
  | Some e => as_run h fuel e loc
  end.

(** [Map.Match] over an enumeration whose keys are interface values. *)
Fixpoint Match_run (h : heap) (fuel : nat) (m : list (iface * Config))
    (err : iface) : option Config :=
  match m with
  | [] => Some defaultConfig
  | (target, config) :: rest =>
      match Is_run h fuel err target with
      | Some true => Some config
      | Some false => Match_run h fuel rest err
      | None => None
      end
  end.

(** [Resolve]: [loc] is nil before [errors.As]; [loc.Localize(tag)] on a
    nil [loc] is a nil dereference. *)
Definition Resolve_run (h : heap) (fuel : nat) (err : iface)
    (m : list (iface * Config)) (tag : Tag) : option (result Response) :=
  match Match_run h fuel m err with
  | None => None
  | Some config =>
      match As_run h fuel err None with
      | None => None
      | Some (returned, loc) =>
          let response detail :=
            {| Response_Type := Config_Type config;
               Response_Title := Config_Title config;
               Response_Status := Config_Status config;
               Response_Detail := detail |} in
          if returned
          then match loc with
               | Some l => Some (Returns (response (l tag)))
               | None => Some Panics
               end
          else Some (Returns (response ""))
      end
  end.

(** *** Error values on the heap *)

(** The interface value of an error value. *)
Definition iface_of (e : error) : iface := id <$> dyn e.

(** The enumeration of a map with its keys as interface values. *)
Definition run_Map (m : Map) : list (iface * Config) :=
  (λ entry, (iface_of entry.1, entry.2)) <$> m.

(** An [As] method that keeps the contract of [errors.As]: when it
    returns true it has stored a [Localizable], the one the value [v]
    records; when it returns false [v] records none. *)
Definition As_agrees (call : option As_call) (recorded : option Localizable) :
    Prop :=
  match call with
  | None => recorded = None
  | Some c =>
      if As_returns c
      then ∃ l, As_stores c = Some (Some l) ∧ recorded = Some l
      else recorded = None
  end.

(** The object at the identity of [v] has the methods [v] records. *)
Definition object_of (h : heap) (v : value) : Prop :=
  obj_comparable (h (id v)) = comparable v
  ∧ obj_Is (h (id v)) = Is_method v
  ∧ obj_Localize (h (id v)) = Localize_method v
  ∧ (Localize_method v = None → As_agrees (obj_As (h (id v))) (As_method v)).

Definition all2 {A B} (R : A → B → Prop) : list A → list B → Prop :=
  fix go l1 l2 :=
    match l1, l2 with
    | [], [] => True
    | a :: l1', b :: l2' => R a b ∧ go l1' l2'
    | _, _ => False
    end.

(** [represents h e i]: the interface value [i] is the error value [e] on
    the heap [h]: its wrap chain is the finite one of [e], and its [As]
    methods keep the contract. *)
Fixpoint represents (h : heap) (e : error) (i : iface) : Prop :=
  match e with
  | Nil => i = None
  | Plain v =>
      i = Some (id v) ∧ object_of h v ∧ obj_Unwrap (h (id v)) = NoUnwrap
  | Wrapping v inner =>
      i = Some (id v) ∧ object_of h v
      ∧ ∃ next, obj_Unwrap (h (id v)) = UnwrapError next
                ∧ represents h inner next
  | Joined v inners =>
      i = Some (id v) ∧ object_of h v
      ∧ ∃ nexts, obj_Unwrap (h (id v)) = UnwrapErrors nexts
                 ∧ all2 (represents h) inners nexts
  end.

(** The keys of [m] are comparable on the heap as their values record. *)
Definition keys_on_heap (h : heap) (m : Map) : Prop :=
  ∀ t c w, (t, c) ∈ m → dyn t = Some w →
    obj_comparable (h (id w)) = comparable w.

(** The number of [Unwrap] calls on the longest path of an error value. *)
Fixpoint depth (e : error) : nat :=
  match e with
  | Nil | Plain _ => 0
  | Wrapping _ inner => S (depth inner)
  | Joined _ inners => S (foldr (λ e n, depth e `max` n) 0 inners)
  end.

(** The outcome of [errors.as] on the heap for an error value: true with
    the [Localizable] that [errors_As] finds, or false. *)
Definition as_outcome (found : option Localizable)
    (ran : option (bool * option Localizable)) : Prop :=
  match found with
  | Some l => ran = Some (true, Some l)
  | None => ∃ loc', ran = Some (false, loc')
  end.

(** A heap for the fixtures: at 7 a [*fmt.wrapError] around the object at
    8, at 8 a [*localizableError] with an English message around the
    object at 2, and values of [errors.New] everywhere else. *)
Definition heap_test : heap :=
  λ p,
    if (p =? 7)%N then
      {| obj_comparable := true; obj_Is := None; obj_As := None;
         obj_Localize := None; obj_Unwrap := UnwrapError (Some 8%N) |}
    else if (p =? 8)%N then
      {| obj_comparable := true; obj_Is := None; obj_As := None;
         obj_Localize :=
           Some (λ tag,
                   match ({[ English := "Please log in" ]} : gmap Tag string)
                         !! tag with
                   | Some msg => msg
                   | None =>
                       default ""
                         (({[ English := "Please log in" ]} : gmap Tag string)
                            !! English)
                   end);
         obj_Unwrap := UnwrapError (Some 2%N) |}
    else
      {| obj_comparable := true; obj_Is := None; obj_As := None;
         obj_Localize := None; obj_Unwrap := NoUnwrap |}.

(** A heap whose objects have an [As] method that returns true and stores
    nothing, and no other method. *)
Definition heap_As_unset : heap :=
  λ _, {| obj_comparable := true; obj_Is := None;
          obj_As := Some {| As_stores := None; As_returns := true |};
          obj_Localize := None; obj_Unwrap := NoUnwrap |}.

(** A heap whose objects have an [Unwrap] method that returns the object
    itself, and no other method. *)
Definition heap_cycle : heap :=
  λ p, {| obj_comparable := true; obj_Is := None; obj_As := None;
          obj_Localize := None; obj_Unwrap := UnwrapError (Some p) |}.

(** ** Induction on error values *)

Section error_induction.
Variable P : error → Prop.
Hypothesis HNil : P Nil.
Hypothesis HPlain : ∀ v, P (Plain v).
Hypothesis HWrapping : ∀ v inner, P inner → P (Wrapping v inner).
Hypothesis HJoined : ∀ v inners, Forall P inners → P (Joined v inners).

Fixpoint error_ind (err : error) : P err :=
  match err with
  | Nil => HNil
  | Plain v => HPlain v
  | Wrapping v inner => HWrapping v inner (error_ind inner)
  | Joined v inners =>
      HJoined v inners
        ((fix all (l : list error) : Forall P l :=
            match l with
            | [] => @List.Forall_nil error P
            | e :: l' => @List.Forall_cons error P e l' (error_ind e) (all l')
            end) inners)
  end.
End error_induction.

(** ** The wrap chain and [errors.Is], [errors.As] *)

Lemma existsb_flat_map {A B} (f : B → bool) (g : A → list B) (l : list A) :
  existsb f (flat_map g l) = existsb (λ a, existsb f (g a)) l.
Proof.
  induction l as [|a l IH]; simpl; [done|].
  by rewrite existsb_app, IH.
Qed.

Lemma first_some_app {A B} (f : A → option B) (l1 l2 : list A) :
  first_some f (l1 ++ l2) =
  match first_some f l1 with Some b => Some b | None => first_some f l2 end.
Proof.
  induction l1 as [|a l1 IH]; simpl; [done|].
  destruct (f a); [done|apply IH].
Qed.

Lemma first_some_flat_map {A B C} (f : B → option C) (g : A → list B)
    (l : list A) :
  first_some f (flat_map g l) = first_some (λ a, first_some f (g a)) l.
Proof.
  induction l as [|a l IH]; simpl; [done|].
  rewrite first_some_app, IH. done.
Qed.

Lemma first_some_ext {A B} (f g : A → option B) (l : list A) :
  Forall (λ a, f a = g a) l → first_some f l = first_some g l.
Proof.
  induction 1 as [|a l Ha _ IH]; simpl; [done|].
  by rewrite Ha, IH.
Qed.

Lemma existsb_Forall_ext {A} (f g : A → bool) (l : list A) :
  Forall (λ a, f a = g a) l → existsb f l = existsb g l.
Proof.
  induction 1 as [|a l Ha _ IH]; simpl; [done|].
  by rewrite Ha, IH.
Qed.

(** [errors.is] succeeds exactly when some value of the chain passes the
    identity test or answers its [Is] method with true. *)
Lemma is_chain (err : error) (target : value) (cmp : bool) :
  is_ err target cmp = existsb (λ v, is_here v target cmp) (chain err).
Proof.
  induction err as [|v|v inner IH|v inners IH] using error_ind; simpl.
  - done.
  - by rewrite orb_false_r.
  - by rewrite IH.
  - f_equal. rewrite existsb_flat_map. by apply existsb_Forall_ext.
Qed.

(** [errors.As] stores the capability of the first value of the chain that
    has one. *)
Lemma As_chain (err : error) :
  errors_As err = first_some as_here (chain err).
Proof.
  induction err as [|v|v inner IH|v inners IH] using error_ind; simpl.
  - done.
  - by destruct (as_here v).
  - by rewrite IH.
  - destruct (as_here v); [done|].
    rewrite first_some_flat_map. by apply first_some_ext.
Qed.

Lemma first_some_split {A B} (f : A → option B) (pre : list A) (a : A)
    (post : list A) (b : B) :
  Forall (λ x, f x = None) pre → f a = Some b →
  first_some f (pre ++ a :: post) = Some b.
Proof.
  intros Hpre Ha. rewrite first_some_app.
  induction Hpre as [|x pre Hx _ IH]; simpl.
  - by rewrite Ha.
  - by rewrite Hx.
Qed.

Lemma first_some_None {A B} (f : A → option B) (l : list A) :
  Forall (λ x, f x = None) l → first_some f l = None.
Proof.
  induction 1 as [|x l Hx _ IH]; simpl; [done|]. by rewrite Hx.
Qed.

Lemma chain_wrap (layers : list value) (e : error) :
  chain (wrap layers e) = layers ++ chain e.
Proof.
  induction layers as [|v layers IH]; simpl; [done|]. by rewrite IH.
Qed.

Lemma dyn_wrap_is_Some (layers : list value) (e : error) :
  e ≠ Nil → is_Some (dyn (wrap layers e)).
Proof.
  intros He. destruct layers as [|v layers]; simpl.
  - destruct e; simpl; [congruence|eexists; reflexivity..].
  - eauto.
Qed.

(** A wrapped error satisfies every target the error under the layers
    satisfies. *)
Lemma Is_wrap (layers : list value) (e s : error) :
  e ≠ Nil → errors_Is e s = true → errors_Is (wrap layers e) s = true.
Proof.
  intros He Hs. unfold errors_Is, same_error in *.
  destruct (dyn_wrap_is_Some layers e He) as [w Hw]. rewrite Hw.
  destruct (dyn e) as [v|] eqn:Hv; [|by destruct e].
  destruct (dyn s) as [t|]; [|done].
  rewrite is_chain in *. rewrite chain_wrap, existsb_app, Hs.
  apply orb_true_r.
Qed.

(** ** [Map.Match] *)

(** The loop of [Match] either runs out, with no key satisfied, or returns
    the configuration of an entry whose key is satisfied. *)
Lemma Match_cases (m : Map) (err : error) :
  (unmatched m err ∧ Match m err = defaultConfig)
  ∨ (∃ t, (t, Match m err) ∈ m ∧ errors_Is err t = true).
Proof.
  induction m as [|[t c] m IH]; simpl.
  - left. split; [|done]. intros t c Hin. by apply elem_of_nil in Hin.
  - destruct (errors_Is err t) eqn:Ht.
    + right. exists t. split; [apply list_elem_of_here|done].
    + destruct IH as [[Hno Hd]|(t' & Hin & Ht')].
      * left. split; [|done]. intros t' c' Hin.
        apply elem_of_cons in Hin as [[= -> ->]|Hin]; [done|by eapply Hno].
      * right. exists t'. split; [by apply list_elem_of_further|done].
Qed.

(** In a map, two entries whose keys are equal under [==] are one entry. *)
Lemma Map_ok_same (m : Map) (t1 t2 : error) (c1 c2 : Config) :
  Map_ok m → (t1, c1) ∈ m → (t2, c2) ∈ m → same_error t1 t2 = true →
  c1 = c2.
Proof.
  intros Hok H1 H2 Hsame.
  apply list_elem_of_lookup in H1 as [i Hi].
  apply list_elem_of_lookup in H2 as [j Hj].
  assert (i = j) as -> by (by eapply Hok).
  congruence.
Qed.

(** When every satisfied key is the key [s], [Match] returns what the map
    holds for [s], whatever the enumeration. *)
Lemma Match_unique (m : Map) (s : error) (c : Config) (err : error) :
  Map_ok m → (s, c) ∈ m → errors_Is err s = true →
  no_other_sentinel m s err → Match m err = c.
Proof.
  intros Hok Hin Hs Hno.
  destruct (Match_cases m err) as [[Hun _]|(t & Ht & HIs)].
  - rewrite (Hun s c Hin) in Hs. done.
  - eapply Map_ok_same; eauto.
Qed.

Lemma elem_of_enumeration (m1 m2 : Map) (x : error * Config) :
  m1 ≡ₚ m2 → x ∈ m2 → x ∈ m1.
Proof. intros Hp Hx. by rewrite Hp. Qed.

Lemma Map_ok_Permutation (m1 m2 : Map) :
  m1 ≡ₚ m2 → Map_ok m1 → Map_ok m2.
Proof.
  intros Hp. revert m1 m2 Hp.
  assert (∀ m : Map, Map_ok m ↔ NoDup m ∧
            ∀ t1 c1 t2 c2, (t1, c1) ∈ m → (t2, c2) ∈ m →
              same_error t1 t2 = true → (t1, c1) = (t2, c2)) as Hchar.
  { intros m. split.
    - intros Hok. split.
      + apply NoDup_alt. intros i j [t c] Hi Hj. eapply Hok; eauto.
        unfold same_error. destruct (dyn t); [apply N.eqb_refl|done].
      + intros t1 c1 t2 c2 H1 H2 Hs.
        apply list_elem_of_lookup in H1 as [i Hi].
        apply list_elem_of_lookup in H2 as [j Hj].
        assert (i = j) as -> by (by eapply Hok). congruence.
    - intros [Hnd Huniq] i j t1 c1 t2 c2 Hi Hj Hs.
      eapply NoDup_lookup; [exact Hnd|exact Hi|].
      rewrite Hj. f_equal. symmetry. eapply Huniq; [| |exact Hs].
      + eapply list_elem_of_lookup_2; eauto.
      + eapply list_elem_of_lookup_2; eauto. }
  intros m1 m2 Hp. rewrite !Hchar. intros [Hnd Huniq]. split.
  - by rewrite <-Hp.
  - intros t1 c1 t2 c2 H1 H2. rewrite <-Hp in H1, H2. by apply Huniq.
Qed.

(** ** [strings.HasPrefix] and [strings.HasSuffix] *)

Lemma string_app_cons (a : Ascii.ascii) (s1 s2 : string) :
  String a s1 +:+ s2 = String a (s1 +:+ s2).
Proof. reflexivity. Qed.

Lemma string_length_app (s1 s2 : string) :
  String.length (s1 +:+ s2) = String.length s1 + String.length s2.
Proof. induction s1 as [|a s1 IH]; simpl; [done|]. by rewrite IH. Qed.

Lemma substring_all (s : string) :
  String.substring 0 (String.length s) s = s.
Proof. induction s as [|a s IH]; simpl; [done|]. by rewrite IH. Qed.

Lemma substring_prefix (pre rest : string) :
  String.substring 0 (String.length pre) (pre +:+ rest) = pre.
Proof.
  induction pre as [|a pre IH]; simpl.
  - by destruct rest.
  - by rewrite IH.
Qed.

Lemma substring_suffix (front suf : string) :
  String.substring (String.length front) (String.length suf) (front +:+ suf)
  = suf.
Proof.
  induction front as [|a front IH]; simpl; [apply substring_all|apply IH].
Qed.

(** A string is what comes before a position followed by what comes
    after it. *)
Lemma substring_split (n k : nat) (s : string) :
  n + k = String.length s →
  s = String.substring 0 n s +:+ String.substring n k s.
Proof.
  revert s. induction n as [|n IH]; intros s Hlen; simpl in *.
  - destruct s as [|a s]; simpl in *; subst.
    + done.
    + by rewrite substring_all.
  - destruct s as [|a s]; simpl in *; [lia|].
    change (String a s =
            String a (String.substring 0 n s +:+ String.substring n k s)).
    f_equal. apply IH. lia.
Qed.

Lemma HasPrefix_spec (s pre : string) :
  strings_HasPrefix s pre = true ↔ ∃ rest, s = pre +:+ rest.
Proof.
  unfold strings_HasPrefix. rewrite andb_true_iff, Nat.leb_le, String.eqb_eq.
  split.
  - intros [Hlen Hsub].
    exists (String.substring (String.length pre)
              (String.length s - String.length pre) s).
    rewrite <-Hsub at 1. apply substring_split. lia.
  - intros [rest ->]. rewrite string_length_app, substring_prefix.
    split; [lia|done].
Qed.

Lemma HasSuffix_spec (s suf : string) :
  strings_HasSuffix s suf = true ↔ ∃ front, s = front +:+ suf.
Proof.
  unfold strings_HasSuffix. rewrite andb_true_iff, Nat.leb_le, String.eqb_eq.
  split.
  - intros [Hlen Hsub].
    exists (String.substring 0 (String.length s - String.length suf) s).
    rewrite <-Hsub at 2. apply substring_split. lia.
  - intros [front ->]. rewrite string_length_app.
    replace (String.length front + String.length suf - String.length suf)
      with (String.length front) by lia.
    rewrite substring_suffix. split; [lia|done].
Qed.

Lemma string_app_assoc (s1 s2 s3 : string) :
  (s1 +:+ s2) +:+ s3 = s1 +:+ (s2 +:+ s3).
Proof.
  induction s1 as [|a s1 IH]; [done|]. by rewrite !string_app_cons, IH.
Qed.

(** Appending one byte is injective in the front part. *)
Lemma string_app_byte_inj (s1 s2 : string) (a : Ascii.ascii) :
  s1 +:+ String a "" = s2 +:+ String a "" → s1 = s2.
Proof.
  revert s2. induction s1 as [|b s1 IH]; intros [|c s2] H;
    rewrite ?string_app_cons in H; change ("" +:+ String a "") with (String a "") in *.
  - done.
  - injection H as -> H. by destruct s2.
  - injection H as -> H. by destruct s1.
  - injection H as -> H. f_equal. by apply IH.
Qed.

Lemma string_app_nil_r (s : string) : s +:+ "" = s.
Proof.
  induction s as [|a s IH]; [done|]. by rewrite string_app_cons, IH.
Qed.

(** Appending the same string is injective in the front part. *)
Lemma string_app_inj_r (s1 s2 t : string) :
  s1 +:+ t = s2 +:+ t → s1 = s2.
Proof.
  revert s1 s2. induction t as [|a t IH]; intros s1 s2 H.
  - by rewrite !string_app_nil_r in H.
  - apply (string_app_byte_inj _ _ a), IH.
    by rewrite !string_app_assoc.
Qed.

Lemma HasSuffix_slash_app (base : string) :
  strings_HasSuffix (base +:+ "/") "/" = true.
Proof. apply HasSuffix_spec. by exists base. Qed.

Lemma with_trailing_slash_ends (base : string) :
  strings_HasSuffix (with_trailing_slash base) "/" = true.
Proof.
  unfold with_trailing_slash.
  destruct (strings_HasSuffix base "/") eqn:H; [done|].
  apply HasSuffix_slash_app.
Qed.

(** [base +:+ "/"] ends in two slashes exactly when [base] ends in one. *)
Lemma HasSuffix_two_slashes (base : string) :
  strings_HasSuffix (base +:+ "/") "//" = strings_HasSuffix base "/".
Proof.
  apply eq_true_iff_eq. rewrite !HasSuffix_spec. split.
  - intros [front H]. exists front.
    apply (string_app_byte_inj _ _ "/"%char).
    rewrite string_app_assoc. exact H.
  - intros [front ->]. exists front. by rewrite string_app_assoc.
Qed.

(** ** [resolveURI] and [Response.ProblemDetail] *)

Lemma resolveURI_with_trailing_slash (base ref : string) :
  resolveURI base ref = with_trailing_slash base +:+ ref.
Proof.
  unfold resolveURI, with_trailing_slash.
  by destruct (strings_HasSuffix base "/").
Qed.

Lemma isAbsoluteURI_spec (uri : string) :
  isAbsoluteURI uri = true ↔
  (∃ rest, uri = "http://" +:+ rest)
  ∨ (∃ rest, uri = "https://" +:+ rest)
  ∨ (∃ rest, uri = "about:" +:+ rest).
Proof.
  unfold isAbsoluteURI. rewrite !orb_true_iff, !HasPrefix_spec. tauto.
Qed.

(** The three keys of the map literal are always stored, with the values
    of the response; the type is the local [typeURI]. *)
Lemma ProblemDetail_type (r : Response) (instance : string)
    (baseURI : list string) :
  emitted_type r instance baseURI =
  Some (AnyString
          match baseURI with
          | b :: _ =>
              if negb (String.eqb b "") && negb (isAbsoluteURI (Response_Type r))
              then resolveURI b (Response_Type r)
              else Response_Type r
          | [] => Response_Type r
          end).
Proof.
  unfold emitted_type, ProblemDetail.
  destruct (negb (String.eqb (Response_Detail r) ""));
    destruct (negb (String.eqb instance ""));
    by simplify_map_eq.
Qed.

(** ** Facts about the fixtures *)

Lemma errMap_ok : Map_ok errMap.
Proof.
  intros i j t1 c1 t2 c2 Hi Hj Hs.
  destruct i as [|[|i]], j as [|[|j]]; simpl in *;
    try done; simplify_eq; done.
Qed.

Lemma errMap_entries (t : error) (c : Config) :
  (t, c) ∈ errMap →
  (t, c) = (ErrNotFound, New "resource/not-found" "Not Found" 404)
  ∨ (t, c) = (ErrUnauthorized, New "auth/unauthorized" "Unauthorized" 401).
Proof.
  unfold errMap. rewrite !elem_of_cons, elem_of_nil. tauto.
Qed.

Lemma errMap_not_nil (t : error) (c : Config) : (t, c) ∈ errMap → t ≠ Nil.
Proof. intros [[= -> _]|[= -> _]]%errMap_entries; done. Qed.

(** ** The cases of httperr_test.go *)

Example TestMap_Match_found :
  Config_Status (Match errMap ErrNotFound) = 404%Z.
Proof. reflexivity. Qed.

Example TestMap_Match_wrapped :
  Config_Status (Match errMap (fmt_Errorf 7 ErrNotFound)) = 404%Z.
Proof. reflexivity. Qed.

Example TestMap_Match_not_found :
  Config_Status (Match [(ErrNotFound, New "resource/not-found" "Not Found" 404)]
                   ErrUnauthorized) = 500%Z.
Proof. reflexivity. Qed.

Example TestResponse_ProblemDetail_without_detail :
  ProblemDetail (mkResponse "internal-error" "Internal Server Error" 500 "")
    "" []
  = {[ "type" := AnyString "internal-error";
       "title" := AnyString "Internal Server Error";
       "status" := AnyInt 500 ]}.
Proof. by apply map_eq; intros k; vm_compute. Qed.

Example TestResponse_ProblemDetail_baseURI :
  emitted_type (mkResponse "auth/unauthorized" "Unauthorized" 401 "")
    "/api/v1/auth" ["https://api.example.com/problems"]
  = Some (AnyString "https://api.example.com/problems/auth/unauthorized").
Proof. reflexivity. Qed.

Example TestResponse_ProblemDetail_baseURI_trailing_slash :
  emitted_type (mkResponse "not-found" "Not Found" 404 "")
    "" ["https://api.example.com/problems/"]
  = Some (AnyString "https://api.example.com/problems/not-found").
Proof. reflexivity. Qed.

Example TestResponse_ProblemDetail_absolute :
  emitted_type
    (mkResponse "https://other.example.com/problems/conflict" "Conflict" 409 "")
    "" ["https://api.example.com/problems/"]
  = Some (AnyString "https://other.example.com/problems/conflict").
Proof. reflexivity. Qed.

Example TestResolve_localizable :
  Resolve
    (newLocalizableError 8 ErrNotFound
       {[ English := "Resource not found"; Japanese := "mitsukarimasen" ]})
    errMap Japanese
  = mkResponse "resource/not-found" "Not Found" 404 "mitsukarimasen".
Proof. reflexivity. Qed.

Example TestResolve_fallback_locale :
  Response_Detail
    (Resolve
       (newLocalizableError 8 ErrNotFound
          {[ English := "Resource not found"; Japanese := "mitsukarimasen" ]})
       errMap "fr")
  = "Resource not found".
Proof. reflexivity. Qed.

Example TestResolve_without_localizable :
  Resolve ErrNotFound errMap English
  = mkResponse "resource/not-found" "Not Found" 404 "".
Proof. reflexivity. Qed.

Example TestResolve_wrapped_localizable :
  Resolve
    (fmt_Errorf 7
       (newLocalizableError 8 ErrUnauthorized {[ English := "Please log in" ]}))
    errMap English
  = mkResponse "auth/unauthorized" "Unauthorized" 401 "Please log in".
Proof. reflexivity. Qed.

(** ** The properties of the specification *)

(** C1. An error [e] that satisfies the registered sentinel [s], and whose
    wrap chain satisfies no other key of the map, is matched to the
    configuration [c] registered for [s]; so is [e] under any finite
    number of wrapping layers, when the wrapped chain satisfies no other
    key either. *)
Theorem Match_registered (m : Map) (s e : error) (c : Config) :
  Map_ok m → (s, c) ∈ m → errors_Is e s = true →
  (no_other_sentinel m s e → Match m e = c)
  ∧ (e ≠ Nil → ∀ layers : list value,
       no_other_sentinel m s (wrap layers e) → Match m (wrap layers e) = c).
Proof.
  intros Hok Hin Hs. split.
  - intros Hno. by apply Match_unique with s.
  - intros He layers Hno. apply Match_unique with s; [done..| |done].
    by apply Is_wrap.
Qed.

Lemma Match_registered_witness :
  Match errMap ErrNotFound = New "resource/not-found" "Not Found" 404
  ∧ Match errMap
      (wrap [Value 7 true None None None; Value 8 true None None None]
         ErrNotFound)
    = New "resource/not-found" "Not Found" 404.
Proof.
  destruct (Match_registered errMap ErrNotFound ErrNotFound
              (New "resource/not-found" "Not Found" 404)) as [H1 H2].
  - exact errMap_ok.
  - apply list_elem_of_here.
  - reflexivity.
  - split.
    + apply H1. intros t c [[= -> ->]|[= -> ->]]%errMap_entries HIs;
        [reflexivity|discriminate HIs].
    + apply H2; [discriminate|].
      intros t c [[= -> ->]|[= -> ->]]%errMap_entries HIs;
        [reflexivity|discriminate HIs].
Defined.

(** C2. An error whose wrap chain satisfies no key of the map is matched
    to the default configuration, which is the constant
    [{about:blank, Internal Server Error, 500}]. *)
Theorem Match_default (m : Map) (err : error) :
  unmatched m err →
  Match m err = defaultConfig
  ∧ Match m err = mkConfig "about:blank" "Internal Server Error" 500.
Proof.
  intros Hun.
  destruct (Match_cases m err) as [[_ Hd]|(t & Hin & HIs)].
  - by rewrite Hd.
  - by rewrite (Hun _ _ Hin) in HIs.
Qed.

Lemma Match_default_witness :
  Match errMap (errors_New 9)
  = mkConfig "about:blank" "Internal Server Error" 500.
Proof.
  apply (Match_default errMap (errors_New 9)).
  intros t c [[= -> ->]|[= -> ->]]%errMap_entries; reflexivity.
Defined.

(** C8. [Match] is a function of the enumerated entries and the error; for
    a map and an error whose wrap chain satisfies at most one key, any two
    enumeration orders of the entries give the same configuration. *)
Theorem Match_enumeration_independent (m1 m2 : Map) (err : error) :
  Map_ok m1 → m1 ≡ₚ m2 →
  (∀ t1 c1 t2 c2, (t1, c1) ∈ m1 → (t2, c2) ∈ m1 →
     errors_Is err t1 = true → errors_Is err t2 = true →
     same_error t1 t2 = true) →
  Match m1 err = Match m2 err.
Proof.
  intros Hok Hp Hone.
  destruct (Match_cases m1 err) as [[Hun Hd]|(t & Hin & HIs)].
  - rewrite Hd.
    destruct (Match_cases m2 err) as [[_ Hd2]|(t & Hin & HIs)]; [done|].
    apply (elem_of_enumeration m1) in Hin; [|done].
    by rewrite (Hun _ _ Hin) in HIs.
  - symmetry. apply Match_unique with t.
    + by apply (Map_ok_Permutation m1).
    + by rewrite <-Hp.
    + done.
    + intros t' c' Hin' HIs'.
      apply (elem_of_enumeration m1) in Hin'; [|done]. eapply Hone; eauto.
Qed.

Lemma Match_enumeration_independent_witness :
  Match errMap (fmt_Errorf 7 ErrNotFound)
  = Match (reverse errMap) (fmt_Errorf 7 ErrNotFound).
Proof.
  apply (Match_enumeration_independent errMap (reverse errMap)).
  - exact errMap_ok.
  - symmetry. apply reverse_Permutation.
  - intros t1 c1 t2 c2 [[= -> ->]|[= -> ->]]%errMap_entries
      [[= -> ->]|[= -> ->]]%errMap_entries H1 H2;
      first [reflexivity|discriminate H1|discriminate H2].
Defined.

(** C10. The configuration [Match] returns is the default configuration or
    the configuration of an entry of the map; [Match] computes nothing but
    this configuration from the map. *)
Theorem Match_from_map (m : Map) (err : error) :
  Match m err = defaultConfig ∨ Match m err ∈ m.*2.
Proof.
  destruct (Match_cases m err) as [[_ Hd]|(t & Hin & _)]; [by left|right].
  apply list_elem_of_fmap. by exists (t, Match m err).
Qed.

(** C3, as [resolveURI] has it.  For a response whose type is not absolute
    and a non-empty base URI, the emitted type is the base URI, with a
    ["/"] appended unless it ends in one, followed by the type: a slash is
    added, none is removed.  The prefix so obtained ends in ["/"], in
    exactly one when the base URI does not end in two, and a base URI
    without the trailing ["/"] gives what the same base URI with it
    gives. *)
Theorem ProblemDetail_relative_type (r : Response) (instance base : string)
    (more : list string) :
  isAbsoluteURI (Response_Type r) = false → base ≠ "" →
  emitted_type r instance (base :: more)
    = Some (AnyString (with_trailing_slash base +:+ Response_Type r))
  ∧ strings_HasSuffix (with_trailing_slash base) "/" = true
  ∧ (strings_HasSuffix base "//" = false →
     strings_HasSuffix (with_trailing_slash base) "//" = false)
  ∧ (strings_HasSuffix base "/" = false →
     emitted_type r instance (base :: more)
     = emitted_type r instance ((base +:+ "/") :: more)).
Proof.
  intros Habs Hbase.
  assert (∀ b, b ≠ "" →
            emitted_type r instance (b :: more)
            = Some (AnyString (with_trailing_slash b +:+ Response_Type r)))
    as Hemit.
  { intros b Hb. rewrite ProblemDetail_type, Habs.
    apply String.eqb_neq in Hb. rewrite Hb. simpl.
    by rewrite resolveURI_with_trailing_slash. }
  split; [by apply Hemit|]. split; [apply with_trailing_slash_ends|].
  split.
  - intros Htwo. unfold with_trailing_slash.
    destruct (strings_HasSuffix base "/") eqn:Hone; [done|].
    by rewrite HasSuffix_two_slashes.
  - intros Hone. rewrite !Hemit; [|by destruct base|done].
    unfold with_trailing_slash. by rewrite Hone, HasSuffix_slash_app.
Qed.

Lemma ProblemDetail_relative_type_witness :
  emitted_type (mkResponse "users/not-found" "User not found" 404 "")
    "/api/v1/users/123" ["https://api.example.com/problems"]
  = Some (AnyString "https://api.example.com/problems/users/not-found")
  ∧ emitted_type (mkResponse "users/not-found" "User not found" 404 "")
      "/api/v1/users/123" ["https://api.example.com/problems"]
    = emitted_type (mkResponse "users/not-found" "User not found" 404 "")
        "/api/v1/users/123" ["https://api.example.com/problems/"].
Proof.
  destruct (ProblemDetail_relative_type
              (mkResponse "users/not-found" "User not found" 404 "")
              "/api/v1/users/123" "https://api.example.com/problems" [])
    as (H1 & _ & _ & H4); [reflexivity|discriminate|].
  split; [exact H1|apply H4; reflexivity].
Defined.

(** C3 as worded fails for a base URI that ends in two slashes: the type is
    not absolute and the base URI is not empty, yet the emitted type keeps
    both slashes, so it is no prefix with exactly one trailing ["/"]
    followed by the type. *)
Lemma ProblemDetail_relative_type_counterexample :
  isAbsoluteURI "users/not-found" = false
  ∧ "https://api.example.com/problems//" ≠ ""
  ∧ emitted_type (mkResponse "users/not-found" "User not found" 404 "")
      "" ["https://api.example.com/problems//"]
    = Some (AnyString "https://api.example.com/problems//users/not-found")
  ∧ ¬ ∃ prefix,
        one_trailing_slash prefix
        ∧ emitted_type (mkResponse "users/not-found" "User not found" 404 "")
            "" ["https://api.example.com/problems//"]
          = Some (AnyString (prefix +:+ "users/not-found")).
Proof.
  split; [reflexivity|]. split; [discriminate|]. split; [reflexivity|].
  intros (prefix & [_ Htwo] & Heq).
  assert (prefix = "https://api.example.com/problems//") as ->.
  { apply (string_app_inj_r _ _ "users/not-found").
    change (emitted_type
              (mkResponse "users/not-found" "User not found" 404 "")
              "" ["https://api.example.com/problems//"])
      with (Some (AnyString
                    ("https://api.example.com/problems//"
                     +:+ "users/not-found"))) in Heq.
    congruence. }
  discriminate Htwo.
Qed.

(** C4. A uri counts as absolute exactly when it starts with ["http://"],
    ["https://"] or ["about:"]; a response whose type starts with one of
    the three has it emitted unchanged, whatever is passed for
    [baseURI]. *)
Theorem ProblemDetail_absolute_type (r : Response) :
  (∀ uri, isAbsoluteURI uri = true ↔
     (∃ rest, uri = "http://" +:+ rest)
     ∨ (∃ rest, uri = "https://" +:+ rest)
     ∨ (∃ rest, uri = "about:" +:+ rest))
  ∧ (strings_HasPrefix (Response_Type r) "http://" = true
     ∨ strings_HasPrefix (Response_Type r) "https://" = true
     ∨ strings_HasPrefix (Response_Type r) "about:" = true →
     ∀ (instance : string) (baseURI : list string),
       emitted_type r instance baseURI = Some (AnyString (Response_Type r))).
Proof.
  split; [apply isAbsoluteURI_spec|].
  intros Hpre instance baseURI. rewrite ProblemDetail_type.
  assert (isAbsoluteURI (Response_Type r) = true) as ->.
  { unfold isAbsoluteURI. rewrite !orb_true_iff. tauto. }
  destruct baseURI as [|b more]; [done|].
  by rewrite andb_false_r.
Qed.

Lemma ProblemDetail_absolute_type_witness :
  emitted_type (mkResponse "about:blank" "Bad Request" 400 "")
    "" ["https://api.example.com/problems/"]
  = Some (AnyString "about:blank").
Proof.
  apply (ProblemDetail_absolute_type
           (mkResponse "about:blank" "Bad Request" 400 "")).
  right. right. reflexivity.
Defined.

(** C5. With an empty detail and an empty instance the returned map has
    exactly the keys ["type"], ["title"] and ["status"].  In general
    ["detail"] is absent when the detail is empty and holds the detail
    otherwise, and likewise ["instance"]; the three other keys are always
    stored. *)
Theorem ProblemDetail_keys (r : Response) (instance : string)
    (baseURI : list string) :
  (Response_Detail r = "" → instance = "" →
   dom (ProblemDetail r instance baseURI)
   = ({["type"; "title"; "status"]} : gset string))
  ∧ ProblemDetail r instance baseURI !! "detail"
    = (if decide (Response_Detail r = "") then None
       else Some (AnyString (Response_Detail r)))
  ∧ ProblemDetail r instance baseURI !! "instance"
    = (if decide (instance = "") then None else Some (AnyString instance))
  ∧ is_Some (ProblemDetail r instance baseURI !! "type")
  ∧ ProblemDetail r instance baseURI !! "title"
    = Some (AnyString (Response_Title r))
  ∧ ProblemDetail r instance baseURI !! "status"
    = Some (AnyInt (Response_Status r)).
Proof.
  split.
  { intros Hd Hi. unfold ProblemDetail. rewrite Hd, Hi. simpl.
    rewrite !dom_insert_L, dom_empty_L. set_solver. }
  unfold ProblemDetail.
  destruct (decide (Response_Detail r = "")) as [Hd|Hd];
    destruct (decide (instance = "")) as [Hi|Hi];
    [rewrite Hd|rewrite Hd|apply String.eqb_neq in Hd; rewrite Hd
    |apply String.eqb_neq in Hd; rewrite Hd];
    [rewrite Hi|apply String.eqb_neq in Hi; rewrite Hi
    |rewrite Hi|apply String.eqb_neq in Hi; rewrite Hi];
    simpl; by simplify_map_eq.
Qed.

Lemma ProblemDetail_keys_witness :
  dom (ProblemDetail
         (mkResponse "internal-error" "Internal Server Error" 500 "") "" [])
  = ({["type"; "title"; "status"]} : gset string).
Proof.
  apply (ProblemDetail_keys
           (mkResponse "internal-error" "Internal Server Error" 500 "") "" []);
    reflexivity.
Defined.

(** ** [Resolve] *)

Lemma Resolve_detail (err : error) (m : Map) (tag : Tag) :
  Response_Detail (Resolve err m tag)
  = match first_some as_here (chain err) with
    | Some loc => loc tag
    | None => ""
    end.
Proof. unfold Resolve. simpl. by rewrite As_chain. Qed.

(** *** The call on the heap *)

Lemma represents_iface (h : heap) (e : error) (i : iface) :
  represents h e i → i = iface_of e.
Proof. destruct e; simpl; intros H; [done|by destruct H as [-> _]..]. Qed.

Lemma represents_None (h : heap) (e : error) :
  represents h e None → e = Nil.
Proof.
  intros H%represents_iface. destruct e; [done|discriminate H..].
Qed.

Lemma depth_inners (inners : list error) (n : nat) :
  foldr (λ e k, depth e `max` k) 0 inners < n →
  Forall (λ e, depth e < n) inners.
Proof.
  induction inners as [|e inners IH]; simpl; intros Hn; constructor.
  - lia.
  - apply IH. lia.
Qed.

(** With fuel beyond the depth of the error value, [errors.is] on the heap
    returns what [is_] computes. *)
Lemma is_run_represents (h : heap) (t : ident) (tv : value) (cmp : bool)
    (e : error) :
  id tv = t →
  ∀ a fuel, represents h e (Some a) → depth e < fuel →
    is_run h fuel a t cmp = Some (is_ e tv cmp).
Proof.
  intros <-.
  induction e as [|v|v inner IH|v inners IH] using error_ind;
    intros a fuel Hrep Hfuel; simpl in Hrep.
  - done.
  - destruct Hrep as ([= ->] & (_ & HIs & _) & Hun).
    destruct fuel as [|n]; [lia|]. simpl. rewrite HIs, Hun. unfold is_here.
    destruct (cmp && (id v =? id tv)%N); [done|]. simpl.
    by destruct (Is_method v) as [f|]; [destruct (f (id tv))|].
  - destruct Hrep as ([= ->] & (_ & HIs & _) & next & Hun & Hin).
    destruct fuel as [|n]; [simpl in Hfuel; lia|].
    simpl. rewrite HIs, Hun. unfold is_here.
    destruct (cmp && (id v =? id tv)%N); [done|]. simpl.
    destruct (match Is_method v with Some m => m (id tv) | None => false end);
      [done|]. simpl.
    destruct next as [b|].
    + apply IH; [done|]. simpl in Hfuel. lia.
    + by rewrite (represents_None h inner Hin).
  - destruct Hrep as ([= ->] & (_ & HIs & _) & nexts & Hun & Hin).
    destruct fuel as [|n]; [simpl in Hfuel; lia|].
    simpl. rewrite HIs, Hun. unfold is_here.
    destruct (cmp && (id v =? id tv)%N); [done|]. simpl.
    destruct (match Is_method v with Some m => m (id tv) | None => false end);
      [done|]. simpl.
    assert (Forall (λ e, depth e < n) inners) as Hdepth.
    { apply depth_inners. simpl in Hfuel. lia. }
    clear Hfuel Hun. revert nexts Hin.
    induction inners as [|e inners IHl]; intros [|next nexts] Hin;
      simpl in Hin; try done.
    destruct Hin as [He Hin].
    apply Forall_cons in IH as [IHe IH].
    apply Forall_cons in Hdepth as [Hde Hdepth].
    simpl. destruct next as [b|].
    + rewrite (IHe b n He Hde). destruct (is_ e tv cmp); [done|].
      by apply IHl.
    + rewrite (represents_None h e He). simpl. by apply IHl.
Qed.

(** [errors.Is] on the heap returns what [errors_Is] computes. *)
Lemma Is_run_represents (h : heap) (e t : error) (i : iface) (fuel : nat) :
  represents h e i → depth e < fuel →
  (∀ w, dyn t = Some w → obj_comparable (h (id w)) = comparable w) →
  Is_run h fuel i (iface_of t) = Some (errors_Is e t).
Proof.
  intros Hrep Hfuel Hkey. unfold Is_run, errors_Is, same_error, iface_of.
  destruct i as [a|].
  - pose proof (represents_iface h e _ Hrep) as Hi. unfold iface_of in Hi.
    destruct (dyn e) as [u|]; [|done].
    destruct (dyn t) as [w|]; [|done]. simpl.
    rewrite (Hkey w eq_refl). by apply is_run_represents.
  - rewrite (represents_None h e Hrep). simpl. by destruct (dyn t).
Qed.

(** [Map.Match] on the heap returns what [Match] computes. *)
Lemma Match_run_represents (h : heap) (m : Map) (e : error) (i : iface)
    (fuel : nat) :
  represents h e i → depth e < fuel → keys_on_heap h m →
  Match_run h fuel (run_Map m) i = Some (Match m e).
Proof.
  intros Hrep Hfuel. induction m as [|[t c] m IH]; intros Hkeys; [done|].
  simpl. rewrite (Is_run_represents h e t i fuel Hrep Hfuel).
  - destruct (errors_Is e t); [done|]. apply IH.
    intros t' c' w Hin. apply (Hkeys t' c' w). by apply list_elem_of_further.
  - intros w. apply (Hkeys t c w). apply list_elem_of_here.
Qed.

Lemma as_run_represents (h : heap) (e : error) :
  ∀ a fuel loc, represents h e (Some a) → depth e < fuel →
    as_outcome (errors_As e) (as_run h fuel a loc).
Proof.
  induction e as [|v|v inner IH|v inners IH] using error_ind;
    intros a fuel loc Hrep Hfuel; simpl in Hrep.
  - done.
  - destruct Hrep as ([= ->] & (_ & _ & HLoc & HAs) & Hun).
    destruct fuel as [|n]; [lia|]. simpl. rewrite HLoc, Hun. unfold as_here.
    destruct (Localize_method v) as [l|]; [done|].
    specialize (HAs eq_refl). unfold As_agrees in HAs.
    destruct (obj_As (h (id v))) as [call|].
    + destruct (As_returns call).
      * destruct HAs as (l & -> & ->). done.
      * rewrite HAs. by eexists.
    + rewrite HAs. by eexists.
  - destruct Hrep as ([= ->] & (_ & _ & HLoc & HAs) & next & Hun & Hin).
    destruct fuel as [|n]; [simpl in Hfuel; lia|].
    simpl. rewrite HLoc, Hun. unfold as_here.
    destruct (Localize_method v) as [l|]; [done|].
    specialize (HAs eq_refl). unfold As_agrees in HAs.
    assert (∀ loc0,
              as_outcome (errors_As inner)
                match next with
                | Some next => as_run h n next loc0
                | None => Some (false, loc0)
                end) as Hrest.
    { intros loc0. destruct next as [b|].
      - apply IH; [done|]. simpl in Hfuel. lia.
      - rewrite (represents_None h inner Hin). by eexists. }
    destruct (obj_As (h (id v))) as [call|].
    + destruct (As_returns call).
      * destruct HAs as (l & -> & ->). done.
      * rewrite HAs. apply Hrest.
    + rewrite HAs. apply Hrest.
  - destruct Hrep as ([= ->] & (_ & _ & HLoc & HAs) & nexts & Hun & Hin).
    destruct fuel as [|n]; [simpl in Hfuel; lia|].
    simpl. rewrite HLoc, Hun. unfold as_here.
    destruct (Localize_method v) as [l|]; [done|].
    specialize (HAs eq_refl). unfold As_agrees in HAs.
    assert (Forall (λ e, depth e < n) inners) as Hdepth.
    { apply depth_inners. simpl in Hfuel. lia. }
    assert (∀ loc0,
              as_outcome (first_some errors_As inners)
                (as_loop (as_run h n) nexts loc0)) as Hrest.
    { clear Hfuel Hun HAs. revert nexts Hin.
      induction inners as [|e inners IHl]; intros [|next nexts] Hin loc0;
        simpl in Hin; try done.
      { by eexists. }
      destruct Hin as [He Hin].
      apply Forall_cons in IH as [IHe IH].
      apply Forall_cons in Hdepth as [Hde Hdepth].
      simpl. destruct next as [b|].
      - specialize (IHe b n loc0 He Hde). unfold as_outcome in IHe.
        destruct (errors_As e) as [l|].
        + by rewrite IHe.
        + destruct IHe as [loc' ->]. by apply IHl.
      - rewrite (represents_None h e He). simpl. by apply IHl. }
    destruct (obj_As (h (id v))) as [call|].
    + destruct (As_returns call).
      * destruct HAs as (l & -> & ->). done.
      * rewrite HAs. apply Hrest.
    + rewrite HAs. apply Hrest.
Qed.

Lemma As_run_represents (h : heap) (e : error) (i : iface) (fuel : nat)
    (loc : option Localizable) :
  represents h e i → depth e < fuel →
  as_outcome (errors_As e) (As_run h fuel i loc).
Proof.
  intros Hrep Hfuel. destruct i as [a|]; simpl.
  - by apply as_run_represents.
  - rewrite (represents_None h e Hrep). by eexists.
Qed.

(** C6, as the code has it.  For an error value on the heap, that is an
    error, nil or not, whose wrap chain is finite and whose [As] methods
    have stored a [Localizable] when they return true, [Resolve] returns
    once the fuel exceeds the depth of the chain: the response has the
    type, title and status of the configuration [Match] returns and the
    detail of the localization step.  When the error satisfies no key and
    no value of its wrap chain has the localization capability, the
    response has the fields of the default configuration and an empty
    detail.  The methods of the values are functions: they return. *)
Theorem Resolve_run_returns (h : heap) (e : error) (i : iface) (m : Map)
    (tag : Tag) (fuel : nat) :
  represents h e i → keys_on_heap h m → depth e < fuel →
  Resolve_run h fuel i (run_Map m) tag
  = Some (Returns
            {| Response_Type := Config_Type (Match m e);
               Response_Title := Config_Title (Match m e);
               Response_Status := Config_Status (Match m e);
               Response_Detail :=
                 match errors_As e with
                 | Some loc => loc tag
                 | None => ""
                 end |})
  ∧ (unmatched m e → Forall (λ v, as_here v = None) (chain e) →
     Resolve_run h fuel i (run_Map m) tag
     = Some (Returns
               (mkResponse "about:blank" "Internal Server Error" 500 ""))).
Proof.
  intros Hrep Hkeys Hfuel.
  assert (Resolve_run h fuel i (run_Map m) tag
          = Some (Returns (Resolve e m tag))) as Hrun.
  { unfold Resolve_run, Resolve.
    rewrite (Match_run_represents h m e i fuel Hrep Hfuel Hkeys).
    pose proof (As_run_represents h e i fuel None Hrep Hfuel) as HAs.
    unfold as_outcome in HAs. destruct (errors_As e) as [l|].
    - by rewrite HAs.
    - destruct HAs as [loc' ->]. done. }
  split; [done|]. intros Hun Hloc. rewrite Hrun. unfold Resolve.
  rewrite As_chain, (first_some_None _ _ Hloc).
  destruct (Match_cases m e) as [[_ ->]|(t & Hin & HIs)]; [done|].
  by rewrite (Hun _ _ Hin) in HIs.
Qed.

Lemma errMap_on_heap_test : keys_on_heap heap_test errMap.
Proof.
  intros t c w [[= -> ->]|[= -> ->]]%errMap_entries [= <-]; reflexivity.
Qed.

Lemma Resolve_run_returns_witness :
  Resolve_run heap_test 3 (Some 7%N) (run_Map errMap) Japanese
  = Some (Returns
            (mkResponse "auth/unauthorized" "Unauthorized" 401
               "Please log in"))
  ∧ Resolve_run heap_test 1 (Some 9%N) (run_Map errMap) Japanese
    = Some (Returns
              (mkResponse "about:blank" "Internal Server Error" 500 "")).
Proof.
  split.
  - refine (proj1 (Resolve_run_returns heap_test
                     (fmt_Errorf 7
                        (newLocalizableError 8 ErrUnauthorized
                           {[ English := "Please log in" ]}))
                     (Some 7%N) errMap Japanese 3 _ _ _)).
    + simpl. unfold object_of, As_agrees. simpl.
      repeat (split || eexists || reflexivity).
    + exact errMap_on_heap_test.
    + simpl. lia.
  - refine (proj2 (Resolve_run_returns heap_test (errors_New 9) (Some 9%N)
                     errMap Japanese 1 _ _ _) _ _).
    + simpl. unfold object_of, As_agrees. simpl.
      repeat (split || reflexivity).
    + exact errMap_on_heap_test.
    + simpl. lia.
    + intros t c [[= -> ->]|[= -> ->]]%errMap_entries; reflexivity.
    + repeat constructor.
Defined.

(** C6 as worded fails on the heap.  An error whose [As] method returns
    true without storing leaves [loc] nil, and the call of [Localize] on
    it is a nil dereference: [Resolve] returns for no fuel.  An error whose
    [Unwrap] method returns the error itself keeps [errors.As] in its
    loop: for no fuel does [Resolve] end at all. *)
Lemma Resolve_run_returns_counterexample :
  (∀ fuel response,
     Resolve_run heap_As_unset fuel (Some 1%N) [] English
     ≠ Some (Returns response))
  ∧ Resolve_run heap_As_unset 1 (Some 1%N) [] English = Some Panics
  ∧ (∀ fuel, Resolve_run heap_cycle fuel (Some 1%N) [] English = None).
Proof.
  split; [|split].
  - intros [|n] response; discriminate.
  - reflexivity.
  - intros fuel. unfold Resolve_run. simpl.
    assert (as_run heap_cycle fuel 1%N None = None) as ->; [|done].
    induction fuel as [|n IH]; [done|]. simpl. exact IH.
Qed.

(** C7. When [v] is the first value of the wrap chain of [err] that has
    the localization capability, the detail [Resolve] returns is the
    message [v] gives for the requested locale; the same holds for [err]
    under one more layer of [fmt.Errorf] wrapping. *)
Theorem Resolve_detail_first_localizable (err : error) (m : Map) (tag : Tag)
    (pre : list value) (v : value) (post : list value) (loc : Localizable) :
  chain err = pre ++ v :: post →
  Forall (λ u, as_here u = None) pre →
  as_here v = Some loc →
  Response_Detail (Resolve err m tag) = loc tag
  ∧ ∀ p, Response_Detail (Resolve (fmt_Errorf p err) m tag) = loc tag.
Proof.
  intros Hchain Hpre Hv.
  assert (first_some as_here (chain err) = Some loc) as Hfirst.
  { rewrite Hchain. by apply first_some_split. }
  split.
  - by rewrite Resolve_detail, Hfirst.
  - intros p. rewrite Resolve_detail. simpl. by rewrite Hfirst.
Qed.

Lemma Resolve_detail_first_localizable_witness :
  Response_Detail
    (Resolve
       (fmt_Errorf 7
          (newLocalizableError 8 ErrUnauthorized
             {[ English := "Please log in" ]}))
       errMap Japanese)
  = "Please log in".
Proof.
  refine (proj1 (Resolve_detail_first_localizable
                   (fmt_Errorf 7
                      (newLocalizableError 8 ErrUnauthorized
                         {[ English := "Please log in" ]}))
                   errMap Japanese
                   [Value 7 true None None None] _
                   [Value 2 true None None None]
                   (λ tag, match ({[ English := "Please log in" ]}
                                    : gmap Tag string) !! tag with
                           | Some msg => msg
                           | None =>
                               default ""
                                 (({[ English := "Please log in" ]}
                                     : gmap Tag string) !! English)
                           end)
                   _ _ _)).
  - reflexivity.
  - repeat constructor.
  - reflexivity.
Defined.

(** C9. For a map without a nil key, [Resolve] applied to the nil error
    returns the type, title and status of the default configuration and an
    empty detail. *)
Theorem Resolve_nil (m : Map) (tag : Tag) :
  (∀ t c, (t, c) ∈ m → t ≠ Nil) →
  Resolve Nil m tag
  = mkResponse (Config_Type defaultConfig) (Config_Title defaultConfig)
      (Config_Status defaultConfig) ""
  ∧ Resolve Nil m tag
    = mkResponse "about:blank" "Internal Server Error" 500 "".
Proof.
  intros Hkeys.
  assert (unmatched m Nil) as Hun.
  { intros t c Hin. specialize (Hkeys t c Hin). by destruct t. }
  unfold Resolve. simpl.
  destruct (Match_cases m Nil) as [[_ ->]|(t & Hin & HIs)]; [done|].
  by rewrite (Hun _ _ Hin) in HIs.
Qed.

Lemma Resolve_nil_witness :
  Resolve Nil errMap Japanese
  = mkResponse "about:blank" "Internal Server Error" 500 "".
Proof.
  apply (Resolve_nil errMap Japanese). exact errMap_not_nil.
Defined.

(** ** Further properties of [Map.Match] *)

(** [Match] looks at an error only through what [errors.Is] answers for
    the keys. *)
Lemma Match_ext (m : Map) (e1 e2 : error) :
  (∀ t c, (t, c) ∈ m → errors_Is e1 t = errors_Is e2 t) →
  Match m e1 = Match m e2.
Proof.
  induction m as [|[t c] m IH]; intros H; simpl; [done|].
  rewrite (H t c) by apply list_elem_of_here.
  rewrite IH; [done|].
  intros t' c' Hin. apply (H t' c'). by apply list_elem_of_further.
Qed.

Lemma unmatched_Permutation (m1 m2 : Map) (err : error) :
  m1 ≡ₚ m2 → unmatched m1 err → unmatched m2 err.
Proof.
  intros Hp Hun t c Hin. apply (Hun t c).
  by apply (elem_of_enumeration m1 m2).
Qed.

(** A value made by [errors.New] satisfies exactly the keys of its own
    identity that are comparable. *)
Lemma Is_errors_New (p : ident) (t : error) :
  errors_Is (errors_New p) t
  = match dyn t with
    | Some w => comparable w && (p =? id w)%N
    | None => false
    end.
Proof.
  unfold errors_Is, errors_New, same_error. simpl.
  destruct (dyn t) as [w|]; [|done].
  unfold is_here. simpl. by rewrite orb_false_r.
Qed.

(** A layer without an [Is] method, at an identity that is not the
    target's, satisfies what the error under it satisfies. *)
Lemma Is_layer (v : value) (err t : error) :
  err ≠ Nil → Is_method v = None →
  (∀ w, dyn t = Some w → id w ≠ id v) →
  errors_Is (Wrapping v err) t = errors_Is err t.
Proof.
  intros He Hm Hfresh. unfold errors_Is, same_error. simpl.
  destruct (dyn err) as [u|] eqn:Hu; [|by destruct err].
  destruct (dyn t) as [w|] eqn:Hw; [|done].
  unfold is_here. rewrite Hm.
  assert ((id v =? id w)%N = false) as ->.
  { apply N.eqb_neq. intros Heq. by apply (Hfresh w). }
  by rewrite andb_false_r.
Qed.

Lemma wrap_not_Nil (layers : list value) (e : error) :
  e ≠ Nil → wrap layers e ≠ Nil.
Proof. intros He. by destruct layers. Qed.

(** X1. Over the enumerations of a map, the configurations [Match] can
    return for an error are those of the entries whose key the error
    satisfies, and the default configuration when it satisfies none. *)
Theorem Match_results_over_enumerations (m : Map) (err : error) (c : Config) :
  (∃ m' : Map, m' ≡ₚ m ∧ Match m' err = c)
  ↔ (∃ t, (t, c) ∈ m ∧ errors_Is err t = true)
    ∨ (unmatched m err ∧ c = defaultConfig).
Proof.
  split.
  - intros (m' & Hp & <-).
    destruct (Match_cases m' err) as [[Hun Hd]|(t & Hin & HIs)].
    + right. split; [by apply (unmatched_Permutation m')|done].
    + left. exists t. split; [|done].
      by apply (elem_of_enumeration m m'); [symmetry|].
  - intros [(t & Hin & HIs)|[Hun ->]].
    + apply elem_of_Permutation in Hin as [k Hk].
      exists ((t, c) :: k). split; [by symmetry|].
      simpl. by rewrite HIs.
    + exists m. split; [done|].
      destruct (Match_cases m err) as [[_ Hd]|(t & Hin & HIs)]; [done|].
      by rewrite (Hun _ _ Hin) in HIs.
Qed.

Lemma Match_results_over_enumerations_witness :
  (∃ m' : Map,
     m' ≡ₚ [ (ErrNotFound, New "resource/not-found" "Not Found" 404);
             (fmt_Errorf 7 ErrNotFound, New "wrapped" "Wrapped" 409) ]
     ∧ Match m' (fmt_Errorf 7 ErrNotFound) = New "wrapped" "Wrapped" 409)
  ∧ (∃ m' : Map,
       m' ≡ₚ [ (ErrNotFound, New "resource/not-found" "Not Found" 404);
               (fmt_Errorf 7 ErrNotFound, New "wrapped" "Wrapped" 409) ]
       ∧ Match m' (fmt_Errorf 7 ErrNotFound)
         = New "resource/not-found" "Not Found" 404).
Proof.
  split.
  - apply (proj2 (Match_results_over_enumerations _ _ _)). left.
    exists (fmt_Errorf 7 ErrNotFound). split; [|reflexivity].
    apply list_elem_of_further, list_elem_of_here.
  - apply (proj2 (Match_results_over_enumerations _ _ _)). left.
    exists ErrNotFound. split; [|reflexivity].
    apply list_elem_of_here.
Defined.

(** X2. An entry whose key the error does not satisfy can be added to the
    map, or removed from it, at any place of the enumeration without
    changing what [Match] returns for that error. *)
Theorem Match_unrelated_entry (m1 m2 : Map) (t : error) (c : Config)
    (err : error) :
  errors_Is err t = false →
  Match (m1 ++ (t, c) :: m2) err = Match (m1 ++ m2) err.
Proof.
  intros Ht. induction m1 as [|[t' c'] m1 IH]; simpl.
  - by rewrite Ht.
  - by rewrite IH.
Qed.

Lemma Match_unrelated_entry_witness :
  Match ([(ErrNotFound, New "resource/not-found" "Not Found" 404)]
         ++ (ErrUnauthorized, New "auth/unauthorized" "Unauthorized" 401)
            :: [])
    (fmt_Errorf 7 ErrNotFound)
  = Match ([(ErrNotFound, New "resource/not-found" "Not Found" 404)] ++ [])
      (fmt_Errorf 7 ErrNotFound).
Proof. apply Match_unrelated_entry. reflexivity. Defined.

(** X3. A sentinel made by [errors.New] that is a key of the map is
    matched to its own configuration, whatever the other keys and the
    enumeration. *)
Theorem Match_sentinel_registered (m : Map) (p : ident) (c : Config) :
  Map_ok m → (errors_New p, c) ∈ m → Match m (errors_New p) = c.
Proof.
  intros Hok Hin. apply Match_unique with (errors_New p); [done..| |].
  - rewrite Is_errors_New. simpl. apply N.eqb_refl.
  - intros t c' _. rewrite Is_errors_New. unfold same_error. simpl.
    destruct (dyn t) as [w|]; [|done].
    intros [_ Hid]%andb_true_iff. by rewrite N.eqb_sym.
Qed.

Lemma Match_sentinel_registered_witness :
  Match errMap (errors_New 2) = New "auth/unauthorized" "Unauthorized" 401.
Proof.
  apply Match_sentinel_registered.
  - exact errMap_ok.
  - apply list_elem_of_further, list_elem_of_here.
Defined.

(** X4. A value made by [errors.New] whose identity is that of no key is
    matched to the default configuration: keys are compared by identity,
    and nothing else of the value is looked at. *)
Theorem Match_sentinel_unregistered (m : Map) (p : ident) :
  unregistered m p → Match m (errors_New p) = defaultConfig.
Proof.
  intros Hfresh.
  destruct (Match_cases m (errors_New p)) as [[_ Hd]|(t & Hin & HIs)];
    [done|].
  rewrite Is_errors_New in HIs.
  destruct (dyn t) as [w|] eqn:Hw; [|done].
  apply andb_true_iff in HIs as [_ Hid%N.eqb_eq].
  by destruct (Hfresh t _ w Hin Hw).
Qed.

Lemma errMap_unregistered (p : ident) :
  p ≠ 1%N → p ≠ 2%N → unregistered errMap p.
Proof.
  intros H1 H2 t c w [[= -> ->]|[= -> ->]]%errMap_entries [= <-]; simpl;
    congruence.
Qed.

Lemma Match_sentinel_unregistered_witness :
  Match errMap (errors_New 9) = defaultConfig.
Proof.
  apply Match_sentinel_unregistered.
  apply errMap_unregistered; discriminate.
Defined.

(** X5. A nil key is matched by the nil error: with [(nil, c)] in the map,
    [Match] returns [c] for nil and [Resolve] returns the fields of [c]
    with an empty detail. *)
Theorem Match_nil_key (m : Map) (c : Config) (tag : Tag) :
  Map_ok m → (Nil, c) ∈ m →
  Match m Nil = c
  ∧ Resolve Nil m tag
    = mkResponse (Config_Type c) (Config_Title c) (Config_Status c) "".
Proof.
  intros Hok Hin.
  assert (Match m Nil = c) as HM.
  { apply Match_unique with Nil; [done..|].
    intros t c' _. unfold errors_Is, same_error. simpl. by destruct (dyn t). }
  split; [done|]. unfold Resolve. simpl. by rewrite HM.
Qed.

Lemma Match_nil_key_witness :
  Match [(Nil, New "none" "No Error" 200)] Nil = New "none" "No Error" 200
  ∧ Resolve Nil [(Nil, New "none" "No Error" 200)] English
    = mkResponse "none" "No Error" 200 "".
Proof.
  apply Match_nil_key.
  - intros i j t1 c1 t2 c2 Hi Hj _.
    destruct i as [|i], j as [|j]; simpl in *; done.
  - apply list_elem_of_here.
Defined.

(** X6. A nil key is never matched by an error that is not nil: for such
    an error the entry of the nil key can be dropped from the map. *)
Theorem Match_nil_key_inert (m1 m2 : Map) (c : Config) (err : error) :
  err ≠ Nil →
  Match (m1 ++ (Nil, c) :: m2) err = Match (m1 ++ m2) err.
Proof.
  intros He. induction m1 as [|[t' c'] m1 IH]; simpl.
  - assert (errors_Is err Nil = false) as ->; [|done].
    unfold errors_Is, same_error. simpl. destruct (dyn err) eqn:Hd; [done|].
    by destruct err.
  - by rewrite IH.
Qed.

Lemma Match_nil_key_inert_witness :
  Match ([] ++ (Nil, New "none" "No Error" 200) :: errMap) ErrNotFound
  = Match ([] ++ errMap) ErrNotFound.
Proof. apply Match_nil_key_inert. discriminate. Defined.

Lemma Is_Joined (v : value) (inners : list error) (e s : error) :
  e ∈ inners → e ≠ Nil → errors_Is e s = true →
  errors_Is (Joined v inners) s = true.
Proof.
  intros Hin He Hs. unfold errors_Is, same_error in *. simpl.
  destruct (dyn e) as [u|] eqn:Hu; [|by destruct e].
  destruct (dyn s) as [t|]; [|done].
  apply orb_true_iff. right. apply existsb_exists.
  exists e. split; [by apply list_elem_of_In|done].
Qed.

(** X7. An error with an [Unwrap() []error] method, as [errors.Join]
    makes, is matched to the configuration of a sentinel that one of the
    errors it holds satisfies, when its wrap chain satisfies no other
    key. *)
Theorem Match_joined (m : Map) (s : error) (c : Config) (v : value)
    (inners : list error) (e : error) :
  Map_ok m → (s, c) ∈ m →
  e ∈ inners → e ≠ Nil → errors_Is e s = true →
  no_other_sentinel m s (Joined v inners) →
  Match m (Joined v inners) = c.
Proof.
  intros Hok Hin He Hnil Hs Hno.
  apply Match_unique with s; [done..| |done].
  by apply Is_Joined with e.
Qed.

Lemma Match_joined_witness :
  Match errMap
    (Joined (Value 7 true None None None) [errors_New 9; ErrUnauthorized])
  = New "auth/unauthorized" "Unauthorized" 401.
Proof.
  apply (Match_joined errMap ErrUnauthorized _ _ _ ErrUnauthorized).
  - exact errMap_ok.
  - apply list_elem_of_further, list_elem_of_here.
  - apply list_elem_of_further, list_elem_of_here.
  - discriminate.
  - reflexivity.
  - intros t c [[= -> ->]|[= -> ->]]%errMap_entries HIs;
      [discriminate HIs|reflexivity].
Defined.

(** ** Further properties of [Resolve] *)

Lemma As_layer (v : value) (err : error) :
  As_method v = None → Localize_method v = None →
  errors_As (Wrapping v err) = errors_As err.
Proof. intros Ha Hl. simpl. unfold as_here. by rewrite Hl, Ha. Qed.

Lemma Match_layer (m : Map) (v : value) (err : error) :
  err ≠ Nil → Is_method v = None → unregistered m (id v) →
  Match m (Wrapping v err) = Match m err.
Proof.
  intros He Hm Hfresh. apply Match_ext. intros t c Hin.
  apply Is_layer; [done..|]. intros w Hw. by apply (Hfresh t c).
Qed.

(** X8. Wrapping is transparent to [Resolve]: under any number of layers
    that have no [Is], [As] or [Localize] method, as those of
    [fmt.Errorf] with [%w], and whose identities are not keys of the map,
    an error that is not nil resolves to the same response. *)
Theorem Resolve_wrapping_transparent (m : Map) (tag : Tag)
    (layers : list value) (err : error) :
  err ≠ Nil →
  Forall (λ v, plain_layer v ∧ unregistered m (id v)) layers →
  Resolve (wrap layers err) m tag = Resolve err m tag.
Proof.
  intros He Hlayers.
  induction Hlayers as [|v layers [(HIs & HAs & HLoc) Hfresh] _ IH];
    simpl; [done|].
  rewrite <-IH. unfold Resolve.
  rewrite Match_layer by (done || by apply wrap_not_Nil).
  by rewrite As_layer.
Qed.

Lemma Resolve_wrapping_transparent_witness :
  Resolve
    (wrap [Value 7 true None None None; Value 8 true None None None]
       (newLocalizableError 5 ErrNotFound {[ English := "Resource not found" ]}))
    errMap English
  = Resolve
      (newLocalizableError 5 ErrNotFound {[ English := "Resource not found" ]})
      errMap English.
Proof.
  apply Resolve_wrapping_transparent; [discriminate|].
  repeat constructor; apply errMap_unregistered; discriminate.
Defined.

(** X9. The [*localizableError] of the tests keeps the configuration of
    the error it wraps and sets the detail: for a wrapped error that is
    not nil, and an identity that is no key of the map, [Resolve] returns
    the fields [Match] gives for the wrapped error, with the message of
    the requested locale, of English when that one is missing, and the
    empty string when both are. *)
Theorem Resolve_localizableError (m : Map) (tag : Tag) (p : ident)
    (inner : error) (messages : gmap Tag string) :
  inner ≠ Nil → unregistered m p →
  Resolve (newLocalizableError p inner messages) m tag
  = {| Response_Type := Config_Type (Match m inner);
       Response_Title := Config_Title (Match m inner);
       Response_Status := Config_Status (Match m inner);
       Response_Detail :=
         match messages !! tag with
         | Some msg => msg
         | None => default "" (messages !! English)
         end |}.
Proof.
  intros He Hfresh. unfold Resolve, newLocalizableError.
  by rewrite Match_layer.
Qed.

Lemma Resolve_localizableError_witness :
  Resolve
    (newLocalizableError 5 ErrNotFound {[ English := "Resource not found" ]})
    errMap "fr"
  = mkResponse "resource/not-found" "Not Found" 404 "Resource not found".
Proof.
  refine (eq_trans
            (Resolve_localizableError errMap "fr" 5%N ErrNotFound
               {[ English := "Resource not found" ]} _ _) _).
  - discriminate.
  - apply errMap_unregistered; discriminate.
  - reflexivity.
Defined.

(** ** Further properties of [Response.ProblemDetail] *)

(** What the returned map holds under a key other than ["type"]. *)
Lemma ProblemDetail_lookup_other (r : Response) (instance : string)
    (baseURI : list string) (k : string) :
  k ≠ "type" →
  ProblemDetail r instance baseURI !! k
  = if decide (k = "instance")
    then (if decide (instance = "") then None else Some (AnyString instance))
    else if decide (k = "detail")
    then (if decide (Response_Detail r = "") then None
          else Some (AnyString (Response_Detail r)))
    else if decide (k = "status") then Some (AnyInt (Response_Status r))
    else if decide (k = "title") then Some (AnyString (Response_Title r))
    else None.
Proof.
  intros Hk. unfold ProblemDetail.
  destruct (decide (Response_Detail r = "")) as [Hd|Hd];
    destruct (decide (instance = "")) as [Hi|Hi];
    [rewrite Hd|rewrite Hd|apply String.eqb_neq in Hd; rewrite Hd
    |apply String.eqb_neq in Hd; rewrite Hd];
    [rewrite Hi|apply String.eqb_neq in Hi; rewrite Hi
    |rewrite Hi|apply String.eqb_neq in Hi; rewrite Hi];
    simpl; rewrite ?lookup_insert, lookup_empty;
    repeat case_decide; congruence.
Qed.

Lemma string_length_with_trailing_slash (base : string) :
  String.length base ≤ String.length (with_trailing_slash base).
Proof.
  unfold with_trailing_slash. destruct (strings_HasSuffix base "/"); [done|].
  rewrite string_length_app. lia.
Qed.

(** Resolving against a base that is not empty changes the type. *)
Lemma resolveURI_changes (base ref : string) :
  base ≠ "" → resolveURI base ref ≠ ref.
Proof.
  intros Hb Heq. apply (f_equal String.length) in Heq.
  rewrite resolveURI_with_trailing_slash, string_length_app in Heq.
  pose proof (string_length_with_trailing_slash base).
  destruct base; [done|]. simpl in *. lia.
Qed.

Lemma isAbsoluteURI_app (uri rest : string) :
  isAbsoluteURI uri = true → isAbsoluteURI (uri +:+ rest) = true.
Proof.
  rewrite !isAbsoluteURI_spec.
  intros [[u ->]|[[u ->]|[u ->]]]; [left|right; left|right; right];
    exists (u +:+ rest); by rewrite string_app_assoc.
Qed.

Lemma isAbsoluteURI_resolveURI (base ref : string) :
  isAbsoluteURI base = true → isAbsoluteURI (resolveURI base ref) = true.
Proof.
  intros Hb. unfold resolveURI.
  destruct (negb (strings_HasSuffix base "/")); cbv zeta;
    by repeat apply isAbsoluteURI_app.
Qed.

(** X10. The keys of the returned map are ["type"], ["title"] and
    ["status"], with ["detail"] when the detail is not empty and
    ["instance"] when the instance is not empty; no other key is ever
    stored. *)
Theorem ProblemDetail_dom (r : Response) (instance : string)
    (baseURI : list string) :
  dom (ProblemDetail r instance baseURI)
  = ({["type"; "title"; "status"]} : gset string)
    ∪ (if decide (Response_Detail r = "") then ∅ else {["detail"]})
    ∪ (if decide (instance = "") then ∅ else {["instance"]}).
Proof.
  unfold ProblemDetail.
  destruct (decide (Response_Detail r = "")) as [Hd|Hd];
    destruct (decide (instance = "")) as [Hi|Hi];
    [rewrite Hd|rewrite Hd|apply String.eqb_neq in Hd; rewrite Hd
    |apply String.eqb_neq in Hd; rewrite Hd];
    [rewrite Hi|apply String.eqb_neq in Hi; rewrite Hi
    |rewrite Hi|apply String.eqb_neq in Hi; rewrite Hi];
    simpl; rewrite !dom_insert_L, dom_empty_L; set_solver.
Qed.

(** X11. The [baseURI] arguments bear on the value of ["type"] only:
    under every other key, two calls that differ in [baseURI] alone return
    the same. *)
Theorem ProblemDetail_baseURI_only_type (r : Response) (instance : string)
    (baseURI1 baseURI2 : list string) (k : string) :
  k ≠ "type" →
  ProblemDetail r instance baseURI1 !! k
  = ProblemDetail r instance baseURI2 !! k.
Proof. intros Hk. by rewrite !ProblemDetail_lookup_other. Qed.

Lemma ProblemDetail_baseURI_only_type_witness :
  ProblemDetail (mkResponse "users/not-found" "User not found" 404 "gone")
    "/api/v1/users/123" [] !! "detail"
  = ProblemDetail (mkResponse "users/not-found" "User not found" 404 "gone")
      "/api/v1/users/123" ["https://api.example.com/problems"] !! "detail".
Proof. apply ProblemDetail_baseURI_only_type. discriminate. Defined.

(** X12. The type is emitted as it is exactly when no [baseURI] is passed,
    when the first one is empty, or when the type is absolute; in every
    other case the emitted type differs from it. *)
Theorem ProblemDetail_type_unchanged_iff (r : Response) (instance : string)
    (baseURI : list string) :
  emitted_type r instance baseURI = Some (AnyString (Response_Type r))
  ↔ baseURI = []
    ∨ (∃ more, baseURI = "" :: more)
    ∨ isAbsoluteURI (Response_Type r) = true.
Proof.
  rewrite ProblemDetail_type. destruct baseURI as [|b more].
  { split; [by left|done]. }
  destruct (decide (b = "")) as [->|Hb].
  { simpl. split; [right; left; by exists more|done]. }
  pose proof Hb as Hb'. apply String.eqb_neq in Hb'. rewrite Hb'. simpl.
  destruct (isAbsoluteURI (Response_Type r)) eqn:Habs.
  { split; [by right; right|done]. }
  split.
  - intros [= Heq]. by destruct (resolveURI_changes b (Response_Type r)).
  - intros [?|[[more' [= -> _]]|?]]; done.
Qed.

Lemma ProblemDetail_type_unchanged_iff_witness :
  emitted_type (mkResponse "users/not-found" "User not found" 404 "")
    "/api/v1/users/123" [""; "https://api.example.com/problems"]
  = Some (AnyString "users/not-found").
Proof.
  apply (proj2 (ProblemDetail_type_unchanged_iff
                  (mkResponse "users/not-found" "User not found" 404 "")
                  "/api/v1/users/123"
                  [""; "https://api.example.com/problems"])).
  right. left. by exists ["https://api.example.com/problems"].
Defined.

(** X13. With an absolute first [baseURI] the emitted type is absolute,
    whatever the type of the response; a response that carries the emitted
    type has it emitted unchanged by every later call. *)
Theorem ProblemDetail_absolute_base (r : Response) (instance base : string)
    (more : list string) :
  isAbsoluteURI base = true →
  ∃ uri, emitted_type r instance (base :: more) = Some (AnyString uri)
         ∧ isAbsoluteURI uri = true
         ∧ ∀ instance' baseURI',
             emitted_type (with_type r uri) instance' baseURI'
             = Some (AnyString uri).
Proof.
  intros Hbase.
  assert (∀ uri, isAbsoluteURI uri = true →
            ∀ instance' baseURI',
              emitted_type (with_type r uri) instance' baseURI'
              = Some (AnyString uri)) as Hstable.
  { intros uri Huri instance' baseURI'. rewrite ProblemDetail_type. simpl.
    rewrite Huri. destruct baseURI' as [|b' more']; [done|].
    by rewrite andb_false_r. }
  rewrite ProblemDetail_type.
  destruct (negb (String.eqb base "")
            && negb (isAbsoluteURI (Response_Type r))) eqn:Hcond.
  - exists (resolveURI base (Response_Type r)).
    split; [done|]. split; [by apply isAbsoluteURI_resolveURI|].
    apply Hstable. by apply isAbsoluteURI_resolveURI.
  - exists (Response_Type r).
    assert (isAbsoluteURI (Response_Type r) = true) as Habs.
    { apply andb_false_iff in Hcond as [Hb|Ht].
      - apply negb_false_iff, String.eqb_eq in Hb. by subst.
      - by apply negb_false_iff in Ht. }
    split; [done|]. split; [done|]. by apply Hstable.
Qed.

Lemma ProblemDetail_absolute_base_witness :
  ∃ uri,
    emitted_type (mkResponse "users/not-found" "User not found" 404 "")
      "" ["https://api.example.com/problems"]
    = Some (AnyString uri)
    ∧ isAbsoluteURI uri = true
    ∧ ∀ instance' baseURI',
        emitted_type
          (with_type (mkResponse "users/not-found" "User not found" 404 "")
             uri)
          instance' baseURI'
        = Some (AnyString uri).
Proof. apply ProblemDetail_absolute_base. reflexivity. Defined.

(** ** [Resolve] followed by [Response.ProblemDetail] *)

(** X14. An error that satisfies no key of the map ends as the problem
    detail of the default configuration: type ["about:blank"], title
    ["Internal Server Error"] and status 500, for every instance and
    every [baseURI]. *)
Theorem Resolve_unmatched_ProblemDetail (m : Map) (err : error) (tag : Tag)
    (instance : string) (baseURI : list string) :
  unmatched m err →
  ProblemDetail (Resolve err m tag) instance baseURI !! "type"
  = Some (AnyString "about:blank")
  ∧ ProblemDetail (Resolve err m tag) instance baseURI !! "title"
    = Some (AnyString "Internal Server Error")
  ∧ ProblemDetail (Resolve err m tag) instance baseURI !! "status"
    = Some (AnyInt 500).
Proof.
  intros Hun.
  assert (Match m err = defaultConfig) as HM.
  { destruct (Match_cases m err) as [[_ Hd]|(t & Hin & HIs)]; [done|].
    by rewrite (Hun _ _ Hin) in HIs. }
  split; [|split].
  - change (emitted_type (Resolve err m tag) instance baseURI
            = Some (AnyString "about:blank")).
    rewrite ProblemDetail_type. unfold Resolve. rewrite HM. simpl.
    destruct baseURI as [|b more]; [done|]. by rewrite andb_false_r.
  - rewrite ProblemDetail_lookup_other by done.
    unfold Resolve. by rewrite HM.
  - rewrite ProblemDetail_lookup_other by done.
    unfold Resolve. by rewrite HM.
Qed.

Lemma Resolve_unmatched_ProblemDetail_witness :
  ProblemDetail (Resolve (errors_New 9) errMap English) "/api"
    ["https://api.example.com/problems"] !! "type"
  = Some (AnyString "about:blank")
  ∧ ProblemDetail (Resolve (errors_New 9) errMap English) "/api"
      ["https://api.example.com/problems"] !! "title"
    = Some (AnyString "Internal Server Error")
  ∧ ProblemDetail (Resolve (errors_New 9) errMap English) "/api"
      ["https://api.example.com/problems"] !! "status"
    = Some (AnyInt 500).
Proof.
  apply Resolve_unmatched_ProblemDetail.
  intros t c [[= -> ->]|[= -> ->]]%errMap_entries; reflexivity.
Defined.

(** X15. The problem detail of a resolved error has a ["detail"] exactly
    when a value of the wrap chain has the localization capability and the
    first such value gives a message that is not empty for the locale; the
    key then holds that message. *)
Theorem Resolve_ProblemDetail_detail (m : Map) (err : error) (tag : Tag)
    (instance : string) (baseURI : list string) :
  ProblemDetail (Resolve err m tag) instance baseURI !! "detail"
  = match first_some as_here (chain err) with
    | Some loc =>
        if decide (loc tag = "") then None else Some (AnyString (loc tag))
    | None => None
    end.
Proof.
  rewrite ProblemDetail_lookup_other by done. simpl.
  rewrite <-As_chain. by destruct (errors_As err).
Qed.
